(** * Lite2D: the render-layer composition of [src/core/Layer.ts]

    A shallow embedding of the [Layer] class and of the part of the canvas
    2D context it drives ([save], [restore], the current transform), with
    the theorems that settle the specification's claims about it. *)

From Stdlib Require Import List ZArith String Bool Lia Sorted Permutation.
Import ListNotations.
Local Open Scope string_scope.
Local Open Scope list_scope.
Local Open Scope Z_scope.
Set Warnings "-register-all".

(** ** The drawing context *)

(** The transforms of the drawing context.  [Layer.ts] never looks inside a
    transform: it only saves one, restores one, and lets the camera compose
    its own onto the current one.  The carrier and the composition are
    therefore kept abstract. *)
Class TransformOps : Type := {
  Transform : Type;
  compose : Transform -> Transform -> Transform
}.

Section Lite2D.

Context `{TO : TransformOps}.

(** What has been painted: a label with the transform it was painted under. *)
Definition Paint : Type := (string * Transform)%type.

(** [CanvasRenderingContext2D], cut down to what [Layer.render] drives:
    the current transform, the stack of states pushed by [save()], and the
    surface that draw calls paint on. *)
Record Ctx : Type := mkCtx {
  cur : Transform;
  saved : list Transform;
  surface : list Paint
}.

(** [ctx.save()]: pushes the current drawing state. *)
Definition ctx_save (c : Ctx) : Ctx :=
  mkCtx (cur c) (cur c :: saved c) (surface c).

(** [ctx.restore()]: pops the most recently saved state; on an empty stack
    the canvas does nothing. *)
Definition ctx_restore (c : Ctx) : Ctx :=
  match saved c with
  | [] => c
  | t :: s => mkCtx t s (surface c)
  end.

(** Modelled from the spec: [Camera] (src/rendering/Camera.ts is not among
    the sources).  A camera computes an affine transform from its position,
    zoom and viewport; only the computed transform matters here. *)
Record Camera : Type := mkCamera {
  matrix : Transform
}.

(** Modelled from the spec: [Camera.applyTransform(ctx)] mutates the
    context's current transform in place, composing the camera's computed
    transform onto it; the saved states and the surface are untouched. *)
Definition applyTransform (cam : Camera) (c : Ctx) : Ctx :=
  mkCtx (compose (cur c) (matrix cam)) (saved c) (surface c).

(** ** Completions, events and the render monad *)

Definition Error : Type := string.

(** How a call ends: normally, or by a thrown error.  The context is a
    mutable object, so what was done to it before a throw stays done. *)
Inductive Completion (A : Type) : Type :=
| Normal (a : A) (c : Ctx)
| Throw (e : Error) (c : Ctx).
Arguments Normal {A} a c.
Arguments Throw {A} e c.

Definition ctx_of {A} (r : Completion A) : Ctx :=
  match r with
  | Normal _ c => c
  | Throw _ c => c
  end.

(** What [Layer.render] does, statement by statement.  [EvRender] is the
    call [child.render(ctx)] of line 66: the child's name, the transform
    the context had when the call was made, and what happened inside. *)
Inductive Event : Type :=
| EvSave
| EvApplyTransform (cam : Camera)
| EvRender (child : string) (seen : Transform) (inner : list Event)
| EvRestore.

(** State (the context) and errors, with a log of events beside them. *)
Definition M (A : Type) : Type := Ctx -> list Event * Completion A.

Definition ret {A} (a : A) : M A := fun c => ([], Normal a c).

Definition bind {A B} (m : M A) (k : A -> M B) : M B :=
  fun c =>
    match m c with
    | (t1, Normal a c1) => let (t2, r) := k a c1 in (t1 ++ t2, r)
    | (t1, Throw e c1) => (t1, Throw e c1)
    end.

Notation "m ;; k" := (bind m (fun _ => k))
  (at level 61, right associativity).

(** A context operation as a step of the monad, logged as [ev]. *)
Definition step (ev : Event) (f : Ctx -> Ctx) : M unit :=
  fun c => ([ev], Normal tt (f c)).

(** A call into code outside this file: no events of its own. *)
Definition extern (f : Ctx -> Completion unit) : M unit :=
  fun c => ([], f c).

(** The call [child.render(ctx)], logged with what the child sees. *)
Definition call (child : string) (m : M unit) : M unit :=
  fun c => let (t, r) := m c in ([EvRender child (cur c) t], r).

(** [for (const x of xs) body(x)] *)
Definition forOf {A} (body : A -> M unit) : list A -> M unit :=
  fix loop (xs : list A) : M unit :=
    match xs with
    | [] => ret tt
    | x :: rest => body x ;; loop rest
    end.

(** ** Game objects and layers *)

(** The fields [Layer] inherits from [GameObject] and reads. *)
Record GameObjectState (G : Type) : Type := mkState {
  name : string;
  active : bool;
  sortingOrder : Z;
  children : list G
}.
Arguments mkState {G}.
Arguments name {G}.
Arguments active {G}.
Arguments sortingOrder {G}.
Arguments children {G}.

(** [class Layer extends GameObject { private _camera: Camera | null }] *)
Record LayerOf (G : Type) : Type := mkLayer {
  base :> GameObjectState G;
  _camera : option Camera
}.
Arguments mkLayer {G}.
Arguments base {G}.
Arguments _camera {G}.

(** A game object is a [Layer] or an instance of some other subclass of
    [GameObject]; the [render] of the latter is code outside this file and
    is carried as a function of the context. *)
Inductive GameObject : Type :=
| Other (st : GameObjectState GameObject) (render : Ctx -> Completion unit)
| ALayer (l : LayerOf GameObject).

Definition Layer : Type := LayerOf GameObject.

Definition state_of (g : GameObject) : GameObjectState GameObject :=
  match g with
  | Other st _ => st
  | ALayer l => base l
  end.

(** ** [Layer.render] *)

(** The body of the loop of lines 64-68: an inactive child is passed over,
    an active one has its own [render] called. *)
Definition renderChild (dispatch : GameObject -> M unit) (child : GameObject)
  : M unit :=
  if active (state_of child)
  then call (name (state_of child)) (dispatch child)
  else ret tt.

(** Lines 52-71, with the dynamically dispatched [child.render] as a
    parameter. *)
Definition Layer_render_with (dispatch : GameObject -> M unit) (this : Layer)
  : M unit :=
  if negb (active this) then ret tt
  else
    step EvSave ctx_save ;;
    match _camera this with
    | Some cam => step (EvApplyTransform cam) (applyTransform cam)
    | None => ret tt
    end ;;
    forOf (renderChild dispatch) (children this) ;;
    step EvRestore ctx_restore.

(** [child.render(ctx)]: dynamic dispatch on the class of the child. *)
Fixpoint GameObject_render (g : GameObject) : M unit :=
  match g with
  | Other _ render => extern render
  | ALayer l => Layer_render_with GameObject_render l
  end.

(** [Layer.render(ctx)] *)
Definition Layer_render (this : Layer) : M unit :=
  Layer_render_with GameObject_render this.

(** The loop of lines 64-68 over a list of children. *)
Definition renderChildren (cs : list GameObject) : M unit :=
  forOf (renderChild GameObject_render) cs.

(** [Layer.onRender(_ctx)], lines 77-79: an empty body. *)
Definition Layer_onRender (this : Layer) : M unit := ret tt.

(** ** The [camera] property and the constructor *)

(** [get camera()], lines 40-42. *)
Definition get_camera (this : Layer) : option Camera := _camera this.

(** [set camera(value)], lines 44-46. *)
Definition set_camera (value : option Camera) (this : Layer) : Layer :=
  mkLayer (base this) value.

(** [constructor(name, camera = null)], lines 31-34.  An omitted argument
    is [None]; [Some None] is an explicit [null].  [super] is the
    constructor of [GameObject], which is not among the sources. *)
Definition Layer_new (super : string -> GameObjectState GameObject)
  (name : string) (camera : option (option Camera)) : Layer :=
  let camera := match camera with
                | Some value => value
                | None => None
                end in
  mkLayer (super name) camera.

(** ** The order of the children *)



(** ** Reading a log *)

(** The calls [child.render(ctx)] a layer made itself: who was called and
    which transform it saw.  Calls made further down are inside [inner]. *)
Fixpoint calls (t : list Event) : list (string * Transform) :=
  match t with
  | [] => []
  | EvRender child seen _ :: rest => (child, seen) :: calls rest
  | _ :: rest => calls rest
  end.

(** The transform a layer sets up for its children over the transform [x]
    it was entered with. *)
Definition view (this : Layer) (x : Transform) : Transform :=
  match _camera this with
  | Some cam => compose x (matrix cam)
  | None => x
  end.

(** The context a layer's children are rendered in. *)
Definition enter (this : Layer) (c : Ctx) : Ctx :=
  match _camera this with
  | Some cam => applyTransform cam (ctx_save c)
  | None => ctx_save c
  end.

Definition camera_events (this : Layer) : list Event :=
  match _camera this with
  | Some cam => [EvApplyTransform cam]
  | None => []
  end.

(** ** What is asked of code outside this file *)

(** A [render] that returns leaves the stack of saved states as it found
    it: its own [save]s and [restore]s are paired. *)
Definition keeps_stack (render : Ctx -> Completion unit) : Prop :=
  forall c c', render c = Normal tt c' -> saved c' = saved c.

(** The same on both exits, the thrown one too. *)
Definition keeps_stack_always (render : Ctx -> Completion unit) : Prop :=
  forall c, saved (ctx_of (render c)) = saved c.

(** A [render] that returns leaves the current transform and the stack as
    it found them. *)
Definition neutral (render : Ctx -> Completion unit) : Prop :=
  forall c c', render c = Normal tt c' ->
               cur c' = cur c /\ saved c' = saved c.

(** [P] holds of every external [render] reachable from [g] through
    layers. *)
Inductive all_hooks (P : (Ctx -> Completion unit) -> Prop)
  : GameObject -> Prop :=
| hooks_other st render : P render -> all_hooks P (Other st render)
| hooks_layer (l : Layer) :
    Forall (all_hooks P) (children l) -> all_hooks P (ALayer l).

(** Induction over a tree of game objects, through the children of its
    layers. *)
Fixpoint GameObject_tree_ind (P : GameObject -> Prop)
  (Hother : forall st render, P (Other st render))
  (Hlayer : forall l : Layer, Forall P (children l) -> P (ALayer l))
  (g : GameObject) {struct g} : P g :=
  match g with
  | Other st render => Hother st render
  | ALayer l =>
      Hlayer l
        ((fix all (cs : list GameObject) : Forall P cs :=
            match cs with
            | [] => Forall_nil P
            | x :: rest =>
                Forall_cons x (GameObject_tree_ind P Hother Hlayer x)
                            (all rest)
            end) (children l))
  end.

(** The names of a list of game objects, and those of them that are
    active. *)
Definition names (cs : list GameObject) : list string :=
  map (fun g => name (state_of g)) cs.

Definition actives (cs : list GameObject) : list GameObject :=
  filter (fun g => active (state_of g)) cs.

(** Where the stack of saved states stands when a call ends: as it was on
    a return, with whatever was pushed and not popped on top of it on a
    throw. *)
Definition stack_after (c : Ctx) (r : Completion unit) : Prop :=
  match r with
  | Normal _ c' => saved c' = saved c
  | Throw _ c' => exists pushed, saved c' = pushed ++ saved c
  end.





(** The events of a log that are not calls of children: what the layer
    did to the context itself. *)
Fixpoint own (t : list Event) : list Event :=
  match t with
  | [] => []
  | EvRender _ _ _ :: rest => own rest
  | ev :: rest => ev :: own rest
  end.

(** An external [render] whose effect on the surface stays within the
    relation [R], on a return and on a throw. *)
Definition surface_by (R : list Paint -> list Paint -> Prop)
  (render : Ctx -> Completion unit) : Prop :=
  forall c, R (surface c) (surface (ctx_of (render c))).

(** An external [render] that never throws. *)
Definition returns (render : Ctx -> Completion unit) : Prop :=
  forall c, exists c', render c = Normal tt c'.

(** A child whose [render], when it returns, leaves the stack of saved
    states as it found it. *)
Definition returns_stack (g : GameObject) : Prop :=
  forall c t c', GameObject_render g c = (t, Normal tt c') ->
                 saved c' = saved c.

(** A child whose [render], when it returns, leaves the current transform
    as it found it. *)
Definition returns_transform (g : GameObject) : Prop :=
  forall c t c', GameObject_render g c = (t, Normal tt c') ->
                 cur c' = cur c.

(** An external [render] that never pops a state it did not push: it
    leaves the stack as it found it when it returns, and with at most more
    on top of it when it throws. *)
Definition never_pops (render : Ctx -> Completion unit) : Prop :=
  forall c, stack_after c (render c).

(** An external [render] that, when it returns, leaves a current transform
    that depends on the context only through the transform it was called
    under. *)
Definition transform_by_transform (render : Ctx -> Completion unit) : Prop :=
  forall a b a' b',
    cur a = cur b ->
    render a = Normal tt a' -> render b = Normal tt b' ->
    cur a' = cur b'.

Definition steady (render : Ctx -> Completion unit) : Prop :=
  keeps_stack render /\ transform_by_transform render.


(** The calls of the active ones among [cs], each under [x], with [log]
    giving what is logged inside a call. *)
Definition calls_log (log : GameObject -> list Event) (x : Transform)
  : list GameObject -> list Event :=
  fix go (cs : list GameObject) : list Event :=
    match cs with
    | [] => []
    | h :: rest =>
        if active (state_of h)
        then EvRender (name (state_of h)) x (log h) :: go rest
        else go rest
    end.

(** The log of a game object rendered under the transform [x], read off
    the tree alone: nothing for a game object that is not a layer or for
    an inactive layer; for an active layer the save, the camera, the calls
    of its active children under its view of [x], each with its own log
    under that view, and the restore. *)
Fixpoint layer_log (x : Transform) (g : GameObject) : list Event :=
  match g with
  | Other _ _ => []
  | ALayer l =>
      if active l
      then EvSave :: camera_events l ++
           calls_log (layer_log (view l x)) (view l x) (children l) ++
           [EvRestore]
      else []
  end.

End Lite2D.

Arguments Normal {TO A} a c.
Arguments Throw {TO A} e c.
Arguments mkState {G}.
Arguments name {G}.
Arguments active {G}.
Arguments sortingOrder {G}.
Arguments children {G}.
Arguments mkLayer {TO G}.
Arguments base {TO G}.
Arguments _camera {TO G}.

(** ** A concrete instance: the affine matrices of the canvas *)

(** [DOMMatrix] restricted to 2D: the matrix [[a c e] [b d f] [0 0 1]]. *)
Record Affine : Type := mkAffine {
  ma : Z; mb : Z; mc : Z; md : Z; me : Z; mf : Z
}.

Definition identity : Affine := mkAffine 1 0 0 1 0 0.

Definition translation (x y : Z) : Affine := mkAffine 1 0 0 1 x y.

(** [ctx.transform(n)]: the current matrix [m] becomes [m * n]. *)
Definition Affine_mul (m n : Affine) : Affine :=
  mkAffine (ma m * ma n + mc m * mb n) (mb m * ma n + md m * mb n)
           (ma m * mc n + mc m * md n) (mb m * mc n + md m * md n)
           (ma m * me n + mc m * mf n + me m)
           (mb m * me n + md m * mf n + mf m).

#[export] Instance AffineOps : TransformOps :=
  {| Transform := Affine; compose := Affine_mul |}.

(** ** Concrete game objects for the examples *)

(** A [render] that paints its label under the current transform. *)
Definition paint (label : string) : Ctx -> Completion unit :=
  fun c => Normal tt (mkCtx (cur c) (saved c) (surface c ++ [(label, cur c)])).

(** A [render] that throws. *)
Definition failing (msg : Error) : Ctx -> Completion unit :=
  fun c => Throw msg c.

Definition sprite (n : string) (order : Z) (on : bool) : GameObject :=
  Other (mkState n on order []) (paint n).

Definition broken (n : string) (order : Z) : GameObject :=
  Other (mkState n true order []) (failing "boom").

Definition layer (n : string) (order : Z) (on : bool)
  (cam : option Camera) (cs : list GameObject) : Layer :=
  mkLayer (mkState n on order cs) cam.

(** A fresh context: identity transform, nothing saved, nothing painted. *)
Definition blank : Ctx := mkCtx identity [] [].

Definition follow : Camera := mkCamera (translation (-10) (-20)).

Definition zoom2 : Camera := mkCamera (mkAffine 2 0 0 2 0 0).

(** A world layer under the camera, with an inactive child and a nested
    layer that zooms; a screen-space layer; a hidden layer; and a layer one
    of whose children throws. *)
Definition world : Layer :=
  layer "world" 0 true (Some follow)
        [sprite "A" 0 true; sprite "off" 1 false;
         ALayer (layer "minimap" 2 true (Some zoom2) [sprite "N" 0 true])].

Definition ui : Layer := layer "ui" 1000 true None [sprite "B" 0 true].

Definition hidden : Layer :=
  layer "hidden" 5 false (Some follow) [sprite "A" 0 true].

Definition faulty : Layer :=
  layer "faulty" 0 true (Some follow)
        [sprite "A" 0 true; broken "X" 1; sprite "C" 2 true].


Definition empty_layer : Layer := layer "L" 0 true None [].

(** An active layer whose only child is inactive. *)
Definition idle : Layer :=
  layer "idle" 0 true (Some follow) [sprite "off" 0 false].

(** [world] under another name and draw order, its inactive child gone. *)
Definition world_trimmed : Layer :=
  layer "stage" 7 true (Some follow)
        [sprite "A" 0 true;
         ALayer (layer "minimap" 2 true (Some zoom2) [sprite "N" 0 true])].

(** A context in use: identity transform, one state saved, paint on the
    surface. *)
Definition busy : Ctx :=
  mkCtx identity [translation 1 1] [("old", identity)].

(** External renders that do not hand the context back as they got it:
    [ctx.translate(5, 5)] with no way back, a [ctx.save()] without its
    [ctx.restore()], a [ctx.restore()] without its [ctx.save()], and a
    [ctx.save()] followed by a throw. *)
Definition nudging : Ctx -> Completion unit :=
  fun c => Normal tt (mkCtx (compose (cur c) (translation 5 5))
                            (saved c) (surface c)).

Definition saving : Ctx -> Completion unit :=
  fun c => Normal tt (ctx_save c).

Definition popping : Ctx -> Completion unit :=
  fun c => Normal tt (ctx_restore c).

Definition save_then_throw : Ctx -> Completion unit :=
  fun c => Throw "snag" (ctx_save c).

Definition external (n : string) (order : Z)
  (render : Ctx -> Completion unit) : GameObject :=
  Other (mkState n true order []) render.

(** Layers holding them. *)
Definition leaky : Layer :=
  layer "leaky" 0 true (Some follow)
        [external "N" 0 nudging; sprite "B" 1 true].

Definition hoarding : Layer :=
  layer "hoarding" 0 true (Some follow) [external "S" 0 saving].

Definition popper : Layer :=
  layer "popper" 0 true None [external "P" 0 popping].



(** [b] is [a] with more at its end. *)
Definition extends {A : Type} (a b : list A) : Prop :=
  exists more, b = a ++ more.

(** ** Unfolding [Layer.render] *)

Section Facts.

Context `{TO : TransformOps}.

Lemma Layer_render_inactive (l : Layer) (c : Ctx) :
  active l = false -> Layer_render l c = ([], Normal tt c).
Proof.
  intros H. unfold Layer_render, Layer_render_with. rewrite H. reflexivity.
Qed.

Lemma Layer_render_active (l : Layer) (c : Ctx) :
  active l = true ->
  Layer_render l c =
  match renderChildren (children l) (enter l c) with
  | (t, Normal _ c3) =>
      (EvSave :: camera_events l ++ t ++ [EvRestore],
       Normal tt (ctx_restore c3))
  | (t, Throw e c3) => (EvSave :: camera_events l ++ t, Throw e c3)
  end.
Proof.
  intros H. unfold Layer_render, Layer_render_with, renderChildren.
  rewrite H. cbn [negb]. unfold enter, camera_events.
  destruct (_camera l) as [cam|]; unfold bind, step, ret; cbn;
    destruct (forOf _ _ _) as [t [[] c3|e c3]]; reflexivity.
Qed.

Lemma renderChildren_nil (c : Ctx) : renderChildren [] c = ([], Normal tt c).
Proof. reflexivity. Qed.

Lemma renderChildren_cons (g : GameObject) (cs : list GameObject) (c : Ctx) :
  renderChildren (g :: cs) c =
  if active (state_of g) then
    match GameObject_render g c with
    | (ti, Normal _ c1) =>
        let (t2, r) := renderChildren cs c1 in
        (EvRender (name (state_of g)) (cur c) ti :: t2, r)
    | (ti, Throw e c1) =>
        ([EvRender (name (state_of g)) (cur c) ti], Throw e c1)
    end
  else renderChildren cs c.
Proof.
  unfold renderChildren. cbn [forOf]. unfold bind at 1, renderChild.
  destruct (active (state_of g)).
  - unfold call. destruct (GameObject_render g c) as [ti [[] c1|e c1]];
      reflexivity.
  - unfold ret. destruct (forOf _ cs c) as [t2 r]. reflexivity.
Qed.

Lemma GameObject_render_layer (l : Layer) :
  GameObject_render (ALayer l) = Layer_render l.
Proof. reflexivity. Qed.

Lemma all_hooks_impl (P Q : (Ctx -> Completion unit) -> Prop) :
  (forall render, P render -> Q render) ->
  forall g, all_hooks P g -> all_hooks Q g.
Proof.
  intros HPQ g. induction g as [st render|l IH] using GameObject_tree_ind;
    intros H; inversion H; subst; constructor; auto.
  rewrite Forall_forall in *. auto.
Qed.

Lemma neutral_keeps_stack render : neutral render -> keeps_stack render.
Proof. intros H c c' E. apply (H c c' E). Qed.

Lemma always_keeps_stack render :
  keeps_stack_always render -> keeps_stack render.
Proof. intros H c c' E. specialize (H c). rewrite E in H. exact H. Qed.

(** ** Invariants of the loop over the children *)

(** A relation between the context before and after that every child's
    returning [render] respects is respected by the whole loop. *)
Lemma renderChildren_invariant (R : Ctx -> Ctx -> Prop) :
  (forall c, R c c) ->
  (forall a b c, R a b -> R b c -> R a c) ->
  forall cs,
    Forall (fun g => forall c t c',
                GameObject_render g c = (t, Normal tt c') -> R c c') cs ->
    forall c t c', renderChildren cs c = (t, Normal tt c') -> R c c'.
Proof.
  intros Hrefl Htrans cs Hcs.
  induction Hcs as [|g cs Hg _ IH]; intros c t c' E.
  - rewrite renderChildren_nil in E. inversion E; subst. apply Hrefl.
  - rewrite renderChildren_cons in E.
    destruct (active (state_of g)); [|eauto].
    destruct (GameObject_render g c) as [ti [[] c1|e c1]] eqn:Eg;
      [|discriminate].
    destruct (renderChildren cs c1) as [t2 r] eqn:Er.
    inversion E; subst. eauto.
Qed.

(** The log of the loop holds calls and nothing else. *)
Lemma renderChildren_only_calls cs :
  forall c t r, renderChildren cs c = (t, r) ->
    forall ev, In ev t -> exists child seen inner, ev = EvRender child seen inner.
Proof.
  induction cs as [|g cs IH]; intros c t r E ev Hin.
  - rewrite renderChildren_nil in E. inversion E; subst. destruct Hin.
  - rewrite renderChildren_cons in E.
    destruct (active (state_of g)); [|eauto].
    destruct (GameObject_render g c) as [ti [[] c1|e c1]] eqn:Eg.
    + destruct (renderChildren cs c1) as [t2 r2] eqn:Er.
      inversion E; subst. destruct Hin as [<-|Hin]; eauto.
    + inversion E; subst. destruct Hin as [<-|[]]; eauto.
Qed.

Lemma ctx_restore_enter (l : Layer) (c c3 : Ctx) :
  saved c3 = saved (enter l c) ->
  cur (ctx_restore c3) = cur c /\ saved (ctx_restore c3) = saved c.
Proof.
  unfold ctx_restore, enter. intros H.
  destruct (_camera l); cbn in H; rewrite H; cbn; auto.
Qed.

Lemma saved_enter (l : Layer) (c : Ctx) : saved (enter l c) = cur c :: saved c.
Proof. unfold enter. destruct (_camera l); reflexivity. Qed.

Lemma cur_enter (l : Layer) (c : Ctx) : cur (enter l c) = view l (cur c).
Proof. unfold enter, view. destruct (_camera l); reflexivity. Qed.

(** ** The save/restore pair of a layer encloses its subtree *)

Lemma render_keeps_stack (g : GameObject) :
  all_hooks keeps_stack g ->
  forall c t c', GameObject_render g c = (t, Normal tt c') ->
                 saved c' = saved c.
Proof.
  induction g as [st render|l IH] using GameObject_tree_ind;
    intros H c t c' E; inversion H; subst.
  - cbn in E. unfold extern in E. inversion E. eauto.
  - rewrite GameObject_render_layer in E.
    destruct (active l) eqn:Ha.
    + rewrite (Layer_render_active l c Ha) in E.
      destruct (renderChildren (children l) (enter l c))
        as [t3 [[] c3|e c3]] eqn:Er; [|discriminate].
      inversion E; subst.
      apply (ctx_restore_enter l).
      apply (renderChildren_invariant (fun a b => saved b = saved a))
        with (cs := children l) (t := t3); auto.
      * intros a b d Hab Hbd. congruence.
      * rewrite Forall_forall in *. intros g Hg. apply IH; auto.
    + rewrite (Layer_render_inactive l c Ha) in E. inversion E; reflexivity.
Qed.

Lemma renderChildren_keeps_stack (cs : list GameObject) :
  Forall (all_hooks keeps_stack) cs ->
  forall c t c', renderChildren cs c = (t, Normal tt c') ->
                 saved c' = saved c.
Proof.
  intros H.
  apply (renderChildren_invariant (fun a b => saved b = saved a)); auto.
  - intros a b d Hab Hbd. congruence.
  - rewrite Forall_forall in *. intros g Hg. apply render_keeps_stack; auto.
Qed.

Lemma Layer_render_balanced (l : Layer) :
  Forall (all_hooks keeps_stack) (children l) ->
  forall c t c', Layer_render l c = (t, Normal tt c') ->
                 cur c' = cur c /\ saved c' = saved c.
Proof.
  intros H c t c' E. destruct (active l) eqn:Ha.
  - rewrite (Layer_render_active l c Ha) in E.
    destruct (renderChildren (children l) (enter l c))
      as [t3 [[] c3|e c3]] eqn:Er; [|discriminate].
    inversion E; subst. apply (ctx_restore_enter l).
    eapply renderChildren_keeps_stack; eauto.
  - rewrite (Layer_render_inactive l c Ha) in E. inversion E; auto.
Qed.

Lemma render_neutral (g : GameObject) :
  all_hooks neutral g ->
  forall c t c', GameObject_render g c = (t, Normal tt c') ->
                 cur c' = cur c /\ saved c' = saved c.
Proof.
  intros H c t c' E. destruct g as [st render|l].
  - inversion H; subst. cbn in E. unfold extern in E. inversion E. eauto.
  - rewrite GameObject_render_layer in E.
    inversion H; subst.
    apply (Layer_render_balanced l) with (t := t); auto.
    rewrite Forall_forall in *. intros g Hg.
    apply (all_hooks_impl neutral keeps_stack neutral_keeps_stack). auto.
Qed.

(** ** What the children are called with *)

Lemma calls_app (t1 t2 : list Event) : calls (t1 ++ t2) = calls t1 ++ calls t2.
Proof.
  induction t1 as [|ev t1 IH]; [reflexivity|].
  destruct ev; cbn; rewrite ?IH; reflexivity.
Qed.

Lemma calls_layer_log (l : Layer) (t3 tail : list Event) :
  calls tail = [] ->
  calls (EvSave :: camera_events l ++ t3 ++ tail) = calls t3.
Proof.
  intros Htail. cbn [calls]. rewrite !calls_app, Htail, app_nil_r.
  unfold camera_events. destruct (_camera l); reflexivity.
Qed.

(** When the loop returns, the children called are the active ones, in
    the order of the array, each once. *)
Lemma renderChildren_names (cs : list GameObject) :
  forall c t c', renderChildren cs c = (t, Normal tt c') ->
                 map fst (calls t) = names (actives cs).
Proof.
  induction cs as [|g cs IH]; intros c t c' E.
  - rewrite renderChildren_nil in E. inversion E; reflexivity.
  - rewrite renderChildren_cons in E. unfold actives. cbn [filter].
    destruct (active (state_of g)); [|eauto].
    destruct (GameObject_render g c) as [ti [[] c1|e c1]] eqn:Eg;
      [|discriminate].
    destruct (renderChildren cs c1) as [t2 r] eqn:Er.
    inversion E; subst. cbn. f_equal. eauto.
Qed.

(** With neutral children every call of the loop is made under the
    transform the loop was entered with, also when a later child throws. *)
Lemma renderChildren_seen (cs : list GameObject) :
  Forall (all_hooks neutral) cs ->
  forall c t r, renderChildren cs c = (t, r) ->
                Forall (fun p => snd p = cur c) (calls t).
Proof.
  intros H. induction H as [|g cs Hg _ IH]; intros c t r E.
  - rewrite renderChildren_nil in E. inversion E; constructor.
  - rewrite renderChildren_cons in E.
    destruct (active (state_of g)); [|eauto].
    destruct (GameObject_render g c) as [ti [[] c1|e c1]] eqn:Eg.
    + destruct (renderChildren cs c1) as [t2 r2] eqn:Er.
      inversion E; subst. cbn. constructor; [reflexivity|].
      destruct (render_neutral g Hg c ti c1 Eg) as [Hc _].
      rewrite <- Hc. eauto.
    + inversion E; subst. cbn. constructor; [reflexivity|constructor].
Qed.

Lemma Layer_render_names (l : Layer) (c c' : Ctx) (t : list Event) :
  active l = true ->
  Layer_render l c = (t, Normal tt c') ->
  map fst (calls t) = names (actives (children l)).
Proof.
  intros Ha E. rewrite (Layer_render_active l c Ha) in E.
  destruct (renderChildren (children l) (enter l c))
    as [t3 [[] c3|e c3]] eqn:Er; [|discriminate].
  inversion E; subst. rewrite calls_layer_log by reflexivity.
  eapply renderChildren_names; eauto.
Qed.

Lemma Layer_render_seen (l : Layer) (c : Ctx) (t : list Event)
  (r : Completion unit) :
  Forall (all_hooks neutral) (children l) ->
  Layer_render l c = (t, r) ->
  Forall (fun p => snd p = view l (cur c)) (calls t).
Proof.
  intros H E. destruct (active l) eqn:Ha.
  - rewrite (Layer_render_active l c Ha) in E.
    rewrite <- cur_enter.
    destruct (renderChildren (children l) (enter l c))
      as [t3 [[] c3|e c3]] eqn:Er; inversion E; subst.
    + rewrite calls_layer_log by reflexivity.
      eapply renderChildren_seen; eauto.
    + rewrite <- (app_nil_r t3), calls_layer_log by reflexivity.
      eapply renderChildren_seen; eauto.
  - rewrite (Layer_render_inactive l c Ha) in E. inversion E; constructor.
Qed.

(** ** The stack when a child throws *)

Lemma renderChildren_stack_after (cs : list GameObject) :
  Forall (fun g => forall c t r,
              GameObject_render g c = (t, r) -> stack_after c r) cs ->
  forall c t r, renderChildren cs c = (t, r) -> stack_after c r.
Proof.
  intros H. induction H as [|g cs Hg _ IH]; intros c t r E.
  - rewrite renderChildren_nil in E. inversion E; reflexivity.
  - rewrite renderChildren_cons in E.
    destruct (active (state_of g)); [|eauto].
    destruct (GameObject_render g c) as [ti [[] c1|e c1]] eqn:Eg.
    + destruct (renderChildren cs c1) as [t2 r2] eqn:Er.
      inversion E; subst.
      apply Hg in Eg. apply IH in Er. cbn in Eg.
      destruct r; cbn in *; rewrite <- Eg; exact Er.
    + inversion E; subst. apply Hg in Eg. exact Eg.
Qed.

Lemma render_stack_after (g : GameObject) :
  all_hooks keeps_stack_always g ->
  forall c t r, GameObject_render g c = (t, r) -> stack_after c r.
Proof.
  induction g as [st render|l IH] using GameObject_tree_ind;
    intros H c t r E; inversion H; subst.
  - cbn in E. unfold extern in E. inversion E; subst.
    specialize (H1 c). destruct (render c) as [[] c'|e c']; cbn in *.
    + exact H1.
    + exists []. exact H1.
  - rewrite GameObject_render_layer in E. destruct (active l) eqn:Ha.
    + rewrite (Layer_render_active l c Ha) in E.
      assert (Hcs : Forall (fun g => forall c t r,
                GameObject_render g c = (t, r) -> stack_after c r)
                (children l)).
      { rewrite Forall_forall in *. intros g Hg. apply IH; auto. }
      destruct (renderChildren (children l) (enter l c))
        as [t3 [[] c3|e c3]] eqn:Er; inversion E; subst;
        apply (renderChildren_stack_after (children l) Hcs) in Er; cbn in Er |- *.
      * apply (ctx_restore_enter l). exact Er.
      * destruct Er as [pushed Er]. rewrite saved_enter in Er.
        exists (pushed ++ [cur c]). rewrite <- app_assoc. exact Er.
    + rewrite (Layer_render_inactive l c Ha) in E. inversion E; reflexivity.
Qed.

(** ** Two passes *)

(** With neutral children the log of a pass that returns is a function of
    the tree and of the transform the pass starts under. *)
Lemma renderChildren_same_log (cs : list GameObject) :
  Forall (all_hooks neutral) cs ->
  Forall (fun g => forall a b ta tb a' b',
              cur a = cur b ->
              GameObject_render g a = (ta, Normal tt a') ->
              GameObject_render g b = (tb, Normal tt b') -> ta = tb) cs ->
  forall a b ta tb a' b',
    cur a = cur b ->
    renderChildren cs a = (ta, Normal tt a') ->
    renderChildren cs b = (tb, Normal tt b') -> ta = tb.
Proof.
  intros Hn Hd. induction Hd as [|g cs Hg _ IH];
    intros a b ta tb a' b' Hab Ea Eb.
  - rewrite renderChildren_nil in Ea, Eb. congruence.
  - inversion Hn as [|? ? Hng Hncs]; subst.
    rewrite renderChildren_cons in Ea, Eb.
    destruct (active (state_of g)); [|eauto].
    destruct (GameObject_render g a) as [ti [[] a1|e a1]] eqn:Ega;
      [|discriminate].
    destruct (GameObject_render g b) as [tj [[] b1|e b1]] eqn:Egb;
      [|discriminate].
    destruct (renderChildren cs a1) as [ta2 ra] eqn:Era.
    destruct (renderChildren cs b1) as [tb2 rb] eqn:Erb.
    inversion Ea; inversion Eb; subst.
    destruct (render_neutral g Hng a ti a1 Ega) as [Ha1 _].
    destruct (render_neutral g Hng b tj b1 Egb) as [Hb1 _].
    rewrite (Hg a b ti tj a1 b1 Hab Ega Egb), Hab.
    f_equal. apply (IH Hncs a1 b1 ta2 tb2 a' b'); congruence.
Qed.

Lemma render_same_log (g : GameObject) :
  all_hooks neutral g ->
  forall a b ta tb a' b',
    cur a = cur b ->
    GameObject_render g a = (ta, Normal tt a') ->
    GameObject_render g b = (tb, Normal tt b') -> ta = tb.
Proof.
  induction g as [st render|l IH] using GameObject_tree_ind;
    intros H a b ta tb a' b' Hab Ea Eb; inversion H; subst.
  - cbn in Ea, Eb. unfold extern in Ea, Eb. congruence.
  - rewrite GameObject_render_layer in Ea, Eb. destruct (active l) eqn:Ha.
    + rewrite (Layer_render_active l a Ha) in Ea.
      rewrite (Layer_render_active l b Ha) in Eb.
      destruct (renderChildren (children l) (enter l a))
        as [t3 [[] a3|e a3]] eqn:Era; [|discriminate].
      destruct (renderChildren (children l) (enter l b))
        as [t4 [[] b3|e b3]] eqn:Erb; [|discriminate].
      inversion Ea; inversion Eb; subst.
      do 3 f_equal.
      apply (renderChildren_same_log (children l)) with
        (a := enter l a) (b := enter l b) (a' := a3) (b' := b3); auto.
      * rewrite Forall_forall in *. intros g Hg. apply IH; auto.
      * rewrite !cur_enter. congruence.
    + rewrite (Layer_render_inactive l a Ha) in Ea.
      rewrite (Layer_render_inactive l b Ha) in Eb. congruence.
Qed.

(** ** The children stay stable-sorted *)










Lemma Forall_hooks_impl (P Q : (Ctx -> Completion unit) -> Prop) :
  (forall render, P render -> Q render) ->
  forall cs, Forall (all_hooks P) cs -> Forall (all_hooks Q) cs.
Proof.
  intros HPQ cs H. rewrite Forall_forall in *. intros g Hg.
  apply (all_hooks_impl P Q HPQ). auto.
Qed.

Lemma forOf_cons {A} (body : A -> M unit) (x : A) (xs : list A) (c : Ctx) :
  forOf body (x :: xs) c =
  match body x c with
  | (t1, Normal _ c1) => let (t2, r) := forOf body xs c1 in (t1 ++ t2, r)
  | (t1, Throw e c1) => (t1, Throw e c1)
  end.
Proof. reflexivity. Qed.

(** The log of an active layer whose render returns: the save, the camera
    if any, calls of children and nothing else, the restore.  What the
    subtree saves and restores is inside those calls. *)
Lemma Layer_render_log_shape (l : Layer) (c c' : Ctx) (t : list Event) :
  active l = true ->
  Layer_render l c = (t, Normal tt c') ->
  exists body,
    t = EvSave :: camera_events l ++ body ++ [EvRestore] /\
    forall ev, In ev body ->
               exists child seen inner, ev = EvRender child seen inner.
Proof.
  intros Ha E. rewrite (Layer_render_active l c Ha) in E.
  destruct (renderChildren (children l) (enter l c))
    as [t3 [[] c3|e c3]] eqn:Er; [|discriminate].
  inversion E; subst. exists t3. split; [reflexivity|].
  exact (renderChildren_only_calls _ _ _ _ Er).
Qed.

(** A layer without a camera logs no camera transform of its own. *)
Lemma Layer_render_no_camera_event (l : Layer) (c : Ctx) (t : list Event)
  (r : Completion unit) :
  _camera l = None ->
  Layer_render l c = (t, r) ->
  forall cam, ~ In (EvApplyTransform cam) t.
Proof.
  intros Hcam E cam Hin. destruct (active l) eqn:Ha.
  - rewrite (Layer_render_active l c Ha) in E.
    unfold camera_events in E. rewrite Hcam in E. cbn [app] in E.
    destruct (renderChildren (children l) (enter l c))
      as [t3 [[] c3|e c3]] eqn:Er; inversion E; subst;
      destruct Hin as [Hin|Hin]; try discriminate.
    + apply in_app_or in Hin. destruct Hin as [Hin|[Hin|[]]];
        [|discriminate].
      destruct (renderChildren_only_calls _ _ _ _ Er _ Hin)
        as (n & s & i & Hev).
      discriminate.
    + destruct (renderChildren_only_calls _ _ _ _ Er _ Hin)
        as (n & s & i & Hev).
      discriminate.
  - rewrite (Layer_render_inactive l c Ha) in E. inversion E; subst.
    destruct Hin.
Qed.

(** ** What the loop does whatever the children do *)


(** The first call of the loop is made under the transform the loop was
    entered with. *)
Lemma renderChildren_first_call (cs : list GameObject) :
  forall c t r, renderChildren cs c = (t, r) ->
    forall p, hd_error (calls t) = Some p -> snd p = cur c.
Proof.
  induction cs as [|g cs IH]; intros c t r E p Hp.
  - rewrite renderChildren_nil in E. inversion E; subst. discriminate.
  - rewrite renderChildren_cons in E.
    destruct (active (state_of g)); [|eauto].
    destruct (GameObject_render g c) as [ti [[] c1|e c1]] eqn:Eg.
    + destruct (renderChildren cs c1) as [t2 r2] eqn:Er.
      inversion E; subst. cbn in Hp. inversion Hp; reflexivity.
    + inversion E; subst. cbn in Hp. inversion Hp; reflexivity.
Qed.

(** So is every call, when the children that return hand the transform
    back. *)
Lemma renderChildren_seen_back (cs : list GameObject) :
  Forall returns_transform cs ->
  forall c t r, renderChildren cs c = (t, r) ->
                Forall (fun p => snd p = cur c) (calls t).
Proof.
  intros H. induction H as [|g cs Hg _ IH]; intros c t r E.
  - rewrite renderChildren_nil in E. inversion E; constructor.
  - rewrite renderChildren_cons in E.
    destruct (active (state_of g)); [|eauto].
    destruct (GameObject_render g c) as [ti [[] c1|e c1]] eqn:Eg.
    + destruct (renderChildren cs c1) as [t2 r2] eqn:Er.
      inversion E; subst. cbn. constructor; [reflexivity|].
      rewrite <- (Hg c ti c1 Eg). eauto.
    + inversion E; subst. cbn. constructor; [reflexivity|constructor].
Qed.

Lemma Layer_render_first_call (l : Layer) (c : Ctx) (t : list Event)
  (r : Completion unit) :
  Layer_render l c = (t, r) ->
  forall p, hd_error (calls t) = Some p -> snd p = view l (cur c).
Proof.
  intros E p Hp. destruct (active l) eqn:Ha.
  - rewrite (Layer_render_active l c Ha) in E. rewrite <- cur_enter.
    destruct (renderChildren (children l) (enter l c))
      as [t3 [[] c3|e c3]] eqn:Er; inversion E; subst.
    + rewrite calls_layer_log in Hp by reflexivity.
      eapply renderChildren_first_call; eauto.
    + rewrite <- (app_nil_r t3), calls_layer_log in Hp by reflexivity.
      eapply renderChildren_first_call; eauto.
  - rewrite (Layer_render_inactive l c Ha) in E. inversion E; subst.
    discriminate.
Qed.

Lemma Layer_render_seen_back (l : Layer) (c : Ctx) (t : list Event)
  (r : Completion unit) :
  Forall returns_transform (children l) ->
  Layer_render l c = (t, r) ->
  Forall (fun p => snd p = view l (cur c)) (calls t).
Proof.
  intros H E. destruct (active l) eqn:Ha.
  - rewrite (Layer_render_active l c Ha) in E. rewrite <- cur_enter.
    destruct (renderChildren (children l) (enter l c))
      as [t3 [[] c3|e c3]] eqn:Er; inversion E; subst.
    + rewrite calls_layer_log by reflexivity.
      eapply renderChildren_seen_back; eauto.
    + rewrite <- (app_nil_r t3), calls_layer_log by reflexivity.
      eapply renderChildren_seen_back; eauto.
  - rewrite (Layer_render_inactive l c Ha) in E. inversion E; constructor.
Qed.

(** The restore of a layer gives the transform and the stack of the start
    back when its children hand the stack back. *)
Lemma Layer_render_hands_back (l : Layer) :
  Forall returns_stack (children l) ->
  forall c t c', Layer_render l c = (t, Normal tt c') ->
                 cur c' = cur c /\ saved c' = saved c.
Proof.
  intros H c t c' E. destruct (active l) eqn:Ha.
  - rewrite (Layer_render_active l c Ha) in E.
    destruct (renderChildren (children l) (enter l c))
      as [t3 [[] c3|e c3]] eqn:Er; [|discriminate].
    inversion E; subst. apply (ctx_restore_enter l).
    apply (renderChildren_invariant (fun a b => saved b = saved a))
      with (cs := children l) (t := t3); auto.
    intros a b d Hab Hbd. congruence.
  - rewrite (Layer_render_inactive l c Ha) in E. inversion E; auto.
Qed.

Lemma hooks_return_stack (g : GameObject) :
  all_hooks keeps_stack g -> returns_stack g.
Proof. intros H c t c' E. exact (render_keeps_stack g H c t c' E). Qed.

Lemma hooks_return_transform (g : GameObject) :
  all_hooks neutral g -> returns_transform g.
Proof. intros H c t c' E. apply (render_neutral g H c t c' E). Qed.



(** With steady external renders the log of a pass that returns, and the
    transform it leaves, are functions of the tree and of the transform
    the pass starts under. *)
Lemma renderChildren_same_log_steady (cs : list GameObject) :
  Forall (fun g => forall a b ta tb a' b',
              cur a = cur b ->
              GameObject_render g a = (ta, Normal tt a') ->
              GameObject_render g b = (tb, Normal tt b') ->
              ta = tb /\ cur a' = cur b') cs ->
  forall a b ta tb a' b',
    cur a = cur b ->
    renderChildren cs a = (ta, Normal tt a') ->
    renderChildren cs b = (tb, Normal tt b') ->
    ta = tb /\ cur a' = cur b'.
Proof.
  intros Hd. induction Hd as [|g cs Hg _ IH];
    intros a b ta tb a' b' Hab Ea Eb.
  - rewrite renderChildren_nil in Ea, Eb.
    inversion Ea; inversion Eb; subst. auto.
  - rewrite renderChildren_cons in Ea, Eb.
    destruct (active (state_of g)); [|eauto].
    destruct (GameObject_render g a) as [ti [[] a1|e a1]] eqn:Ega;
      [|discriminate].
    destruct (GameObject_render g b) as [tj [[] b1|e b1]] eqn:Egb;
      [|discriminate].
    destruct (renderChildren cs a1) as [ta2 ra] eqn:Era.
    destruct (renderChildren cs b1) as [tb2 rb] eqn:Erb.
    inversion Ea; inversion Eb; subst.
    destruct (Hg a b ti tj a1 b1 Hab Ega Egb) as [-> H1].
    destruct (IH a1 b1 ta2 tb2 a' b' H1 Era Erb) as [-> H2].
    rewrite Hab. auto.
Qed.

Lemma render_same_log_steady (g : GameObject) :
  all_hooks steady g ->
  forall a b ta tb a' b',
    cur a = cur b ->
    GameObject_render g a = (ta, Normal tt a') ->
    GameObject_render g b = (tb, Normal tt b') ->
    ta = tb /\ cur a' = cur b'.
Proof.
  induction g as [st render|l IH] using GameObject_tree_ind;
    intros H a b ta tb a' b' Hab Ea Eb; inversion H; subst.
  - cbn in Ea, Eb. unfold extern in Ea, Eb.
    inversion Ea; inversion Eb; subst.
    split; [reflexivity|]. destruct H1 as [_ Hby]. eauto.
  - assert (Hk : Forall returns_stack (children l)).
    { rewrite Forall_forall in *. intros g Hg. apply hooks_return_stack.
      apply (all_hooks_impl steady keeps_stack); [intros ? [? _]|]; auto. }
    rewrite GameObject_render_layer in Ea, Eb.
    destruct (Layer_render_hands_back l Hk a ta a' Ea) as [Ha' _].
    destruct (Layer_render_hands_back l Hk b tb b' Eb) as [Hb' _].
    split; [|congruence].
    destruct (active l) eqn:Ha.
    + rewrite (Layer_render_active l a Ha) in Ea.
      rewrite (Layer_render_active l b Ha) in Eb.
      destruct (renderChildren (children l) (enter l a))
        as [t3 [[] a3|e a3]] eqn:Era; [|discriminate].
      destruct (renderChildren (children l) (enter l b))
        as [t4 [[] b3|e b3]] eqn:Erb; [|discriminate].
      inversion Ea; inversion Eb; subst.
      do 3 f_equal.
      apply (renderChildren_same_log_steady (children l)) with
        (a := enter l a) (b := enter l b) (a' := a3) (b' := b3); auto.
      * rewrite Forall_forall in *. intros g Hg. apply IH; auto.
      * rewrite !cur_enter. congruence.
    + rewrite (Layer_render_inactive l a Ha) in Ea.
      rewrite (Layer_render_inactive l b Ha) in Eb. congruence.
Qed.




(** ** The claims *)


(** C2, as amended: sibling layers whose renders return and whose
    children hand the stack back.  Every layer is entered under the
    transform the first one was entered under and the caller gets the
    transform and the stack back; the log of a layer is its save, its
    camera, the calls of its children and its restore, in that nesting;
    its first child is called under its own camera over the entry
    transform and under no other layer's, and so are all its children when
    they hand the transform back. *)
Theorem sibling_layers_do_not_leak
  (ls : list Layer) (c c' : Ctx) (t : list Event) :
  Forall (fun l : Layer => Forall returns_stack (children l)) ls ->
  renderChildren (map ALayer ls) c = (t, Normal tt c') ->
  cur c' = cur c /\ saved c' = saved c /\
  Forall2 (fun (l : Layer) ev =>
             exists body,
               ev = EvRender (name l) (cur c)
                      (EvSave :: camera_events l ++ body ++ [EvRestore]) /\
               (forall e, In e body ->
                          exists child seen inner,
                            e = EvRender child seen inner) /\
               (forall p, hd_error (calls body) = Some p ->
                          snd p = view l (cur c)) /\
               (Forall returns_transform (children l) ->
                Forall (fun p => snd p = view l (cur c)) (calls body)))
          (filter (fun l : Layer => active l) ls) t.
Proof.
  intros H. revert c t. induction H as [|l ls Hl _ IH]; intros c t E.
  - cbn [map] in E. rewrite renderChildren_nil in E. inversion E; subst.
    cbn. auto.
  - cbn [map] in E. rewrite renderChildren_cons in E.
    cbn [state_of filter] in E |- *.
    destruct (active l) eqn:Ha; [|auto].
    rewrite GameObject_render_layer in E.
    destruct (Layer_render l c) as [ti [[] c1|e c1]] eqn:El; [|discriminate].
    destruct (renderChildren (map ALayer ls) c1) as [t2 r2] eqn:Er.
    inversion E; subst.
    destruct (Layer_render_hands_back l Hl c ti c1 El) as [Hc Hs].
    destruct (IH c1 t2 Er) as (Hc' & Hs' & Hall).
    rewrite Hc in Hc', Hall. rewrite Hs in Hs'.
    repeat split; try assumption.
    constructor; [|exact Hall].
    destruct (Layer_render_log_shape l c c1 ti Ha El) as (body & -> & Hbody).
    exists body. repeat split; [exact Hbody| |].
    + intros p Hp.
      rewrite <- (calls_layer_log l body [EvRestore] eq_refl) in Hp.
      exact (Layer_render_first_call l c _ _ El p Hp).
    + intros Hb.
      rewrite <- (calls_layer_log l body [EvRestore] eq_refl).
      exact (Layer_render_seen_back l c _ _ Hb El).
Qed.

(** C3, as amended: in an active layer with a camera the first child
    called is called under the camera's transform composed onto the
    transform the layer was entered under, and so is every child called
    when the children that return hand the transform back; when the
    layer's render returns, the children called are exactly its active
    ones, in order. *)
Theorem camera_layer_children_see_camera
  (l : Layer) (cam : Camera) (c : Ctx) (t : list Event)
  (r : Completion unit) :
  active l = true ->
  _camera l = Some cam ->
  Layer_render l c = (t, r) ->
  (forall p, hd_error (calls t) = Some p ->
             snd p = compose (cur c) (matrix cam)) /\
  (Forall returns_transform (children l) ->
   Forall (fun p => snd p = compose (cur c) (matrix cam)) (calls t)) /\
  (forall c', r = Normal tt c' ->
              map fst (calls t) = names (actives (children l))).
Proof.
  intros Ha Hcam E.
  assert (Hv : view l (cur c) = compose (cur c) (matrix cam))
    by (unfold view; rewrite Hcam; reflexivity).
  rewrite <- Hv. repeat split.
  - exact (Layer_render_first_call l c t r E).
  - intros H. exact (Layer_render_seen_back l c t r H E).
  - intros c' ->. apply (Layer_render_names l c c' t Ha E).
Qed.

(** C4: rendering an inactive layer does nothing: no event is logged, so
    nothing is saved, transformed, drawn or restored, whatever is below the
    layer, and the context is returned as it was. *)
Theorem inactive_layer_render_is_noop (l : Layer) (c : Ctx) :
  active l = false ->
  Layer_render l c = ([], Normal tt c) /\
  GameObject_render (ALayer l) c = ([], Normal tt c).
Proof.
  intros Ha. rewrite GameObject_render_layer.
  split; apply Layer_render_inactive; exact Ha.
Qed.

(** C5, as amended: rendering a sequence of active layers without a
    camera, one after the other, with every render returning and the
    children handing the stack back, leaves the context under the
    transform it had before, over the same stack; and none of the layers
    applies a camera transform on the way. *)
Theorem screen_layers_leave_transform
  (ls : list Layer) (c c' : Ctx) (t : list Event) :
  Forall (fun l : Layer => active l = true /\ _camera l = None) ls ->
  Forall (fun l : Layer => Forall returns_stack (children l)) ls ->
  forOf Layer_render ls c = (t, Normal tt c') ->
  cur c' = cur c /\ saved c' = saved c /\
  (forall cam, ~ In (EvApplyTransform cam) t).
Proof.
  intros Hs H. revert c t.
  induction H as [|l ls Hl _ IH]; intros c t E.
  - cbn in E. inversion E; subst. cbn. auto.
  - inversion Hs as [|? ? [_ Hcam] Hs']; subst.
    rewrite forOf_cons in E.
    destruct (Layer_render l c) as [t1 [[] c1|e c1]] eqn:El; [|discriminate].
    destruct (forOf Layer_render ls c1) as [t2 r2] eqn:Er.
    inversion E; subst.
    destruct (Layer_render_hands_back l Hl c t1 c1 El) as [Hc Hsv].
    destruct (IH Hs' c1 t2 Er) as (Hc' & Hsv' & Hno).
    repeat split; try congruence.
    intros cam Hin. apply in_app_or in Hin. destruct Hin as [Hin|Hin].
    + exact (Layer_render_no_camera_event l c t1 _ Hcam El cam Hin).
    + exact (Hno cam Hin).
Qed.


(** C7, as amended: two passes over the same layer, one right after the
    other, both returning, with steady external renders below the layer:
    the second logs what the first logged, the same calls in the same
    order under the same transforms, and leaves the transform and the
    stack where the first left them. *)
Theorem render_twice_same_traversal
  (l : Layer) (c c1 c2 : Ctx) (t1 t2 : list Event) :
  Forall (all_hooks steady) (children l) ->
  Layer_render l c = (t1, Normal tt c1) ->
  Layer_render l c1 = (t2, Normal tt c2) ->
  t1 = t2 /\ cur c2 = cur c1 /\ saved c2 = saved c1.
Proof.
  intros H E1 E2.
  assert (Hk : Forall returns_stack (children l)).
  { rewrite Forall_forall in *. intros g Hg. apply hooks_return_stack.
    apply (all_hooks_impl steady keeps_stack); [intros ? [? _]|]; auto. }
  destruct (Layer_render_hands_back l Hk c t1 c1 E1) as [Hc1 _].
  split; [|apply (Layer_render_hands_back l Hk c1 t2 c2 E2)].
  apply (render_same_log_steady (ALayer l) (hooks_layer steady l H)
           c c1 t1 t2 c1 c2); auto.
Qed.

(** C8: reading the camera after setting it to [v] gives [v], and the
    setter changes no inherited field: name, active flag, draw order and
    children are as before. *)
Theorem camera_set_then_get (l : Layer) (v : option Camera) :
  get_camera (set_camera v l) = v /\ base (set_camera v l) = base l.
Proof. split; reflexivity. Qed.

(** C9: [onRender] does nothing: it logs no event, returns, and hands the
    context back as it was. *)
Theorem Layer_onRender_is_noop (l : Layer) (c : Ctx) :
  Layer_onRender l c = ([], Normal tt c).
Proof. reflexivity. Qed.

(** C10: a layer built without the camera argument has no camera, and is
    the layer built with an explicit null, whatever the name. *)
Theorem Layer_new_camera_defaults_to_none
  (super : string -> GameObjectState GameObject) (n : string) :
  get_camera (Layer_new super n None) = None /\
  Layer_new super n None = Layer_new super n (Some None).
Proof. split; reflexivity. Qed.

End Facts.

(** ** The concrete game objects keep the context *)

Lemma paint_neutral (label : string) : neutral (paint label).
Proof. intros c c' E. inversion E; subst. split; reflexivity. Qed.

Lemma paint_keeps_stack (label : string) : keeps_stack (paint label).
Proof. intros c c' E. inversion E; subst. reflexivity. Qed.

Lemma paint_keeps_stack_always (label : string) :
  keeps_stack_always (paint label).
Proof. intros c. reflexivity. Qed.

Lemma failing_keeps_stack_always (msg : Error) :
  keeps_stack_always (failing msg).
Proof. intros c. reflexivity. Qed.

Lemma failing_neutral (msg : Error) : neutral (failing msg).
Proof. intros c c' E. discriminate. Qed.

Create HintDb hooks.
Lemma paint_never_pops (label : string) : never_pops (paint label).
Proof. intros c. reflexivity. Qed.

Lemma failing_never_pops (msg : Error) : never_pops (failing msg).
Proof. intros c. exists []. reflexivity. Qed.

Lemma save_then_throw_never_pops : never_pops save_then_throw.
Proof. intros c. exists [cur c]. reflexivity. Qed.

Lemma paint_steady (label : string) : steady (paint label).
Proof.
  split.
  - apply paint_keeps_stack.
  - intros a b a' b' Hab Ea Eb. inversion Ea; inversion Eb; subst. exact Hab.
Qed.

Lemma nudging_keeps_stack : keeps_stack nudging.
Proof. intros c c' E. inversion E; subst. reflexivity. Qed.

Lemma nudging_steady : steady nudging.
Proof.
  split.
  - apply nudging_keeps_stack.
  - intros a b a' b' Hab Ea Eb. inversion Ea; inversion Eb; subst.
    cbn [cur]. rewrite Hab. reflexivity.
Qed.

#[local] Hint Resolve paint_neutral paint_keeps_stack
  paint_keeps_stack_always failing_keeps_stack_always failing_neutral
  paint_never_pops failing_never_pops save_then_throw_never_pops
  paint_steady nudging_keeps_stack nudging_steady
  : hooks.

(** Walks a concrete tree down to its external [render]s. *)
Ltac walk_hooks :=
  repeat first
    [ apply Forall_nil
    | apply Forall_cons
    | apply hooks_other
    | apply hooks_layer ];
  auto with hooks.

(** Walks concrete layers down to their children. *)
Ltac walk_children :=
  repeat first [ apply Forall_nil | apply Forall_cons ];
  first [ apply hooks_return_stack; walk_hooks
        | apply hooks_return_transform; walk_hooks ].

(** ** The theorems at concrete scenes *)



(** C2, the claim as it stands fails: the child of [hoarding] saves and
    does not restore.  The restore of [hoarding] pops that state, the
    camera's transform stays current, [ui] is entered and draws [B] under
    it, and the caller gets it back, with no error anywhere. *)
Lemma unpaired_save_leaks_camera :
  renderChildren (map ALayer [hoarding; ui]) blank =
    ([EvRender "hoarding" identity
        [EvSave; EvApplyTransform follow;
         EvRender "S" (translation (-10) (-20)) []; EvRestore];
      EvRender "ui" (translation (-10) (-20))
        [EvSave; EvRender "B" (translation (-10) (-20)) []; EvRestore]],
     Normal tt (mkCtx (translation (-10) (-20)) [identity]
                      [("B", translation (-10) (-20))])) /\
  ~ (forall (ls : list Layer) (c c' : Ctx) (t : list Event),
        renderChildren (map ALayer ls) c = (t, Normal tt c') ->
        cur c' = cur c /\
        Forall2 (fun (l : Layer) ev =>
                   exists inner, ev = EvRender (name l) (cur c) inner)
                (filter (fun l : Layer => active l) ls) t).
Proof.
  split; [reflexivity|].
  intros claim.
  destruct (claim [hoarding; ui] blank _ _ eq_refl) as [Hc _].
  discriminate Hc.
Qed.

(** [leaky], whose child moves the transform and keeps the stack, then
    [ui]: [ui] is entered under the identity. *)
Lemma sibling_layers_do_not_leak_witness :
  Forall (fun l : Layer => Forall returns_stack (children l)) [leaky; ui] /\
  exists t c',
    renderChildren (map ALayer [leaky; ui]) blank = (t, Normal tt c') /\
    cur c' = cur blank /\ saved c' = saved blank /\
    Forall2 (fun (l : Layer) ev =>
               exists body,
                 ev = EvRender (name l) (cur blank)
                        (EvSave :: camera_events l ++ body ++ [EvRestore]) /\
                 (forall e, In e body ->
                            exists child seen inner,
                              e = EvRender child seen inner) /\
                 (forall p, hd_error (calls body) = Some p ->
                            snd p = view l (cur blank)) /\
                 (Forall returns_transform (children l) ->
                  Forall (fun p => snd p = view l (cur blank)) (calls body)))
            (filter (fun l : Layer => active l) [leaky; ui]) t.
Proof.
  assert (H : Forall (fun l : Layer => Forall returns_stack (children l))
                     [leaky; ui])
    by walk_children.
  split; [exact H|].
  eexists. eexists. split; [reflexivity|].
  apply (sibling_layers_do_not_leak [leaky; ui] blank _ _ H).
  reflexivity.
Defined.

(** C3, the claim as it stands fails: the first child of [leaky] moves
    the transform by (5, 5) and returns; [B], called next, sees the camera
    moved by that much. *)
Lemma moved_transform_reaches_next_child :
  Layer_render leaky blank =
    ([EvSave; EvApplyTransform follow;
      EvRender "N" (translation (-10) (-20)) [];
      EvRender "B" (translation (-5) (-15)) [];
      EvRestore],
     Normal tt (mkCtx identity [] [("B", translation (-5) (-15))])) /\
  ~ (forall (l : Layer) (cam : Camera) (c : Ctx) (t : list Event)
            (r : Completion unit),
        active l = true ->
        _camera l = Some cam ->
        Layer_render l c = (t, r) ->
        Forall (fun p => snd p = compose (cur c) (matrix cam)) (calls t)).
Proof.
  split; [reflexivity|].
  intros claim.
  pose proof (claim leaky follow blank _ _ eq_refl eq_refl eq_refl) as H.
  cbn in H. inversion H as [|? ? _ H2]; subst.
  inversion H2 as [|? ? HB _]; subst.
  discriminate HB.
Qed.

(** The children of [world] under the camera [follow]. *)
Lemma camera_layer_children_see_camera_witness :
  active world = true /\ _camera world = Some follow /\
  Forall returns_transform (children world) /\
  exists t c',
    Layer_render world blank = (t, Normal tt c') /\
    (forall p, hd_error (calls t) = Some p ->
               snd p = compose (cur blank) (matrix follow)) /\
    Forall (fun p => snd p = compose (cur blank) (matrix follow)) (calls t) /\
    map fst (calls t) = ["A"; "minimap"].
Proof.
  assert (H : Forall returns_transform (children world)) by walk_children.
  split; [reflexivity|]. split; [reflexivity|]. split; [exact H|].
  eexists. eexists. split; [reflexivity|].
  destruct (camera_layer_children_see_camera world follow blank _
              (Normal tt _) eq_refl eq_refl eq_refl)
    as (Hfirst & Hseen & Hnames).
  split; [exact Hfirst|]. split; [exact (Hseen H)|].
  exact (Hnames _ eq_refl).
Defined.

(** [hidden] has an active child and a camera, and does nothing. *)
Lemma inactive_layer_render_is_noop_witness :
  active hidden = false /\
  Layer_render hidden blank = ([], Normal tt blank) /\
  GameObject_render (ALayer hidden) blank = ([], Normal tt blank).
Proof.
  split; [reflexivity|].
  apply (inactive_layer_render_is_noop hidden blank). reflexivity.
Defined.

(** C5, the claim as it stands fails: the child of [popper] restores
    without having saved and returns.  It pops the state the layer saved,
    the restore of the layer pops a state of the caller's, and the context
    comes back under (1, 1) instead of the identity. *)
Lemma unpaired_restore_changes_transform :
  forOf Layer_render [popper] busy =
    ([EvSave; EvRender "P" identity []; EvRestore],
     Normal tt (mkCtx (translation 1 1) [] [("old", identity)])) /\
  ~ (forall (ls : list Layer) (c c' : Ctx) (t : list Event),
        Forall (fun l : Layer => active l = true /\ _camera l = None) ls ->
        forOf Layer_render ls c = (t, Normal tt c') ->
        cur c' = cur c).
Proof.
  split; [reflexivity|].
  intros claim.
  assert (Ha : Forall (fun l : Layer => active l = true /\ _camera l = None)
                      [popper])
    by (repeat constructor).
  pose proof (claim [popper] busy _ _ Ha eq_refl) as Hc.
  discriminate Hc.
Qed.

(** The screen-space layer rendered twice in a row. *)
Lemma screen_layers_leave_transform_witness :
  Forall (fun l : Layer => active l = true /\ _camera l = None) [ui; ui] /\
  Forall (fun l : Layer => Forall returns_stack (children l)) [ui; ui] /\
  exists t c',
    forOf Layer_render [ui; ui] blank = (t, Normal tt c') /\
    cur c' = cur blank /\ saved c' = saved blank /\
    (forall cam, ~ In (EvApplyTransform cam) t).
Proof.
  assert (Ha : Forall (fun l : Layer => active l = true /\ _camera l = None)
                      [ui; ui])
    by (repeat constructor).
  assert (H : Forall (fun l : Layer => Forall returns_stack (children l))
                     [ui; ui])
    by walk_children.
  split; [exact Ha|]. split; [exact H|].
  eexists. eexists. split; [reflexivity|].
  eapply (screen_layers_leave_transform [ui; ui] blank _ _ Ha H).
  reflexivity.
Defined.


(** C7, the claim as it stands fails: the first pass over [faulty] ends
    in a throw and leaves the camera's transform current; the second pass
    applies the camera onto it and calls [A] under (-20, -40). *)
Lemma second_pass_after_throw_differs :
  Layer_render faulty blank =
    ([EvSave; EvApplyTransform follow;
      EvRender "A" (translation (-10) (-20)) [];
      EvRender "X" (translation (-10) (-20)) []],
     Throw "boom" (mkCtx (translation (-10) (-20)) [identity]
                         [("A", translation (-10) (-20))])) /\
  fst (Layer_render faulty
         (mkCtx (translation (-10) (-20)) [identity]
                [("A", translation (-10) (-20))])) =
    [EvSave; EvApplyTransform follow;
     EvRender "A" (translation (-20) (-40)) [];
     EvRender "X" (translation (-20) (-40)) []] /\
  ~ (forall (l : Layer) (c : Ctx) (t1 t2 : list Event)
            (r1 r2 : Completion unit),
        Layer_render l c = (t1, r1) ->
        Layer_render l (ctx_of r1) = (t2, r2) ->
        t1 = t2).
Proof.
  split; [reflexivity|]. split; [reflexivity|].
  intros claim.
  pose proof (claim faulty blank _ _ _ _ eq_refl eq_refl) as H.
  discriminate H.
Qed.

(** Two passes over [leaky], whose child moves the transform the same
    way each time. *)
Lemma render_twice_same_traversal_witness :
  Forall (all_hooks steady) (children leaky) /\
  exists t1 c1 t2 c2,
    Layer_render leaky blank = (t1, Normal tt c1) /\
    Layer_render leaky c1 = (t2, Normal tt c2) /\
    t1 = t2 /\ cur c2 = cur c1 /\ saved c2 = saved c1.
Proof.
  assert (H : Forall (all_hooks steady) (children leaky)) by walk_hooks.
  split; [exact H|].
  eexists. eexists. eexists. eexists.
  split; [reflexivity|]. split; [reflexivity|].
  exact (render_twice_same_traversal leaky blank _ _ _ _ H eq_refl eq_refl).
Defined.

(** ** Further properties of [Layer.render] *)

Section Further.

Context `{TO : TransformOps}.

Lemma renderChildren_app (xs ys : list GameObject) :
  forall c,
    renderChildren (xs ++ ys) c =
    match renderChildren xs c with
    | (t1, Normal _ c1) =>
        let (t2, r) := renderChildren ys c1 in (t1 ++ t2, r)
    | (t1, Throw e c1) => (t1, Throw e c1)
    end.
Proof.
  induction xs as [|g xs IH]; intros c.
  - cbn [app]. rewrite renderChildren_nil.
    destruct (renderChildren ys c) as [t2 r]. reflexivity.
  - cbn [app]. rewrite !renderChildren_cons.
    destruct (active (state_of g)); [|apply IH].
    destruct (GameObject_render g c) as [ti [[] c1|e c1]]; [|reflexivity].
    rewrite IH.
    destruct (renderChildren xs c1) as [t1 [[] c2|e c2]]; [|reflexivity].
    destruct (renderChildren ys c2) as [t2 r]. reflexivity.
Qed.

Lemma renderChildren_actives (cs : list GameObject) :
  forall c, renderChildren cs c = renderChildren (actives cs) c.
Proof.
  induction cs as [|g cs IH]; intros c; [reflexivity|].
  unfold actives. cbn [filter]. rewrite renderChildren_cons.
  destruct (active (state_of g)) eqn:Ha; [|apply IH].
  rewrite renderChildren_cons, Ha.
  destruct (GameObject_render g c) as [ti [[] c1|e c1]]; [|reflexivity].
  fold (actives cs). rewrite <- IH. reflexivity.
Qed.

Lemma ctx_restore_enter_eq (l : Layer) (c c3 : Ctx) :
  saved c3 = saved (enter l c) ->
  ctx_restore c3 = mkCtx (cur c) (saved c) (surface c3).
Proof.
  intros H. rewrite saved_enter in H. unfold ctx_restore. rewrite H.
  reflexivity.
Qed.

Lemma surface_enter (l : Layer) (c : Ctx) : surface (enter l c) = surface c.
Proof. unfold enter. destruct (_camera l); reflexivity. Qed.

Lemma surface_restore (c : Ctx) : surface (ctx_restore c) = surface c.
Proof. unfold ctx_restore. destruct (saved c); reflexivity. Qed.

Lemma own_app (t1 t2 : list Event) : own (t1 ++ t2) = own t1 ++ own t2.
Proof.
  induction t1 as [|ev t1 IH]; [reflexivity|].
  destruct ev; cbn; rewrite ?IH; reflexivity.
Qed.

Lemma own_only_calls (t : list Event) :
  (forall ev, In ev t -> exists child seen inner,
                           ev = EvRender child seen inner) ->
  own t = [].
Proof.
  induction t as [|ev t IH]; intros H; [reflexivity|].
  destruct (H ev (or_introl eq_refl)) as (n & s & i & ->).
  cbn. apply IH. intros ev' Hin. apply H. right. exact Hin.
Qed.

Lemma own_camera_events (l : Layer) : own (camera_events l) = camera_events l.
Proof. unfold camera_events. destruct (_camera l); reflexivity. Qed.

(** When the loop returns with neutral external renders, its log is the
    one read off the tree. *)
Lemma renderChildren_log (cs : list GameObject) :
  Forall (all_hooks neutral) cs ->
  Forall (fun g => forall c t c',
              GameObject_render g c = (t, Normal tt c') ->
              t = layer_log (cur c) g) cs ->
  forall c t c', renderChildren cs c = (t, Normal tt c') ->
                 t = calls_log (layer_log (cur c)) (cur c) cs.
Proof.
  intros Hn Hl. induction Hl as [|g cs Hg _ IH]; intros c t c' E.
  - rewrite renderChildren_nil in E. inversion E; reflexivity.
  - inversion Hn as [|? ? Hng Hncs]; subst.
    rewrite renderChildren_cons in E. cbn [calls_log].
    destruct (active (state_of g)); [|eauto].
    destruct (GameObject_render g c) as [ti [[] c1|e c1]] eqn:Eg;
      [|discriminate].
    destruct (renderChildren cs c1) as [t2 r] eqn:Er.
    inversion E; subst.
    destruct (render_neutral g Hng c ti c1 Eg) as [Hc _].
    rewrite (Hg c ti c1 Eg). f_equal.
    rewrite <- Hc. eapply IH; eauto.
Qed.

Lemma render_log (g : GameObject) :
  all_hooks neutral g ->
  forall c t c', GameObject_render g c = (t, Normal tt c') ->
                 t = layer_log (cur c) g.
Proof.
  induction g as [st render|l IH] using GameObject_tree_ind;
    intros H c t c' E; inversion H; subst.
  - cbn in E. unfold extern in E. inversion E; reflexivity.
  - rewrite GameObject_render_layer in E. cbn [layer_log].
    destruct (active l) eqn:Ha.
    + rewrite (Layer_render_active l c Ha) in E.
      destruct (renderChildren (children l) (enter l c))
        as [t3 [[] c3|e c3]] eqn:Er; [|discriminate].
      inversion E; subst. do 3 f_equal.
      rewrite <- cur_enter.
      apply (renderChildren_log (children l)) with (c' := c3); auto.
      rewrite Forall_forall in *. intros g Hg. apply IH; auto.
    + rewrite (Layer_render_inactive l c Ha) in E. inversion E; reflexivity.
Qed.

Lemma renderChildren_calls (cs : list GameObject) :
  Forall (all_hooks neutral) cs ->
  forall c t c', renderChildren cs c = (t, Normal tt c') ->
    calls t = map (fun g => (name (state_of g), cur c)) (actives cs).
Proof.
  intros H. induction H as [|g cs Hg _ IH]; intros c t c' E.
  - rewrite renderChildren_nil in E. inversion E; reflexivity.
  - rewrite renderChildren_cons in E. unfold actives. cbn [filter].
    destruct (active (state_of g)); [|eauto].
    destruct (GameObject_render g c) as [ti [[] c1|e c1]] eqn:Eg;
      [|discriminate].
    destruct (renderChildren cs c1) as [t2 r] eqn:Er.
    inversion E; subst.
    destruct (render_neutral g Hg c ti c1 Eg) as [Hc _].
    cbn. f_equal. rewrite <- Hc. eapply IH; eauto.
Qed.

Lemma renderChildren_surface (R : list Paint -> list Paint -> Prop)
  (cs : list GameObject) :
  (forall s, R s s) ->
  (forall a b d, R a b -> R b d -> R a d) ->
  Forall (fun g => forall c t r, GameObject_render g c = (t, r) ->
                                 R (surface c) (surface (ctx_of r))) cs ->
  forall c t r, renderChildren cs c = (t, r) ->
                R (surface c) (surface (ctx_of r)).
Proof.
  intros Hrefl Htrans H. induction H as [|g cs Hg _ IH]; intros c t r E.
  - rewrite renderChildren_nil in E. inversion E; subst. apply Hrefl.
  - rewrite renderChildren_cons in E.
    destruct (active (state_of g)); [|eauto].
    destruct (GameObject_render g c) as [ti [[] c1|e c1]] eqn:Eg.
    + destruct (renderChildren cs c1) as [t2 r2] eqn:Er.
      inversion E; subst.
      apply (Htrans _ (surface c1)); [apply (Hg _ _ _ Eg)|eauto].
    + inversion E; subst. apply (Hg _ _ _ Eg).
Qed.

Lemma render_surface (R : list Paint -> list Paint -> Prop)
  (g : GameObject) :
  (forall s, R s s) ->
  (forall a b d, R a b -> R b d -> R a d) ->
  all_hooks (surface_by R) g ->
  forall c t r, GameObject_render g c = (t, r) ->
                R (surface c) (surface (ctx_of r)).
Proof.
  intros Hrefl Htrans.
  induction g as [st render|l IH] using GameObject_tree_ind;
    intros H c t r E; inversion H; subst.
  - cbn in E. unfold extern in E. inversion E; subst. apply H1.
  - rewrite GameObject_render_layer in E. destruct (active l) eqn:Ha.
    + rewrite (Layer_render_active l c Ha) in E.
      assert (Hcs : Forall (fun g => forall c t r,
                GameObject_render g c = (t, r) ->
                R (surface c) (surface (ctx_of r))) (children l)).
      { rewrite Forall_forall in *. intros g Hg. apply IH; auto. }
      destruct (renderChildren (children l) (enter l c))
        as [t3 r3] eqn:Er.
      pose proof (renderChildren_surface R (children l) Hrefl Htrans Hcs
                    _ _ _ Er) as HR.
      rewrite surface_enter in HR.
      destruct r3 as [[] c3|e c3]; inversion E; subst; cbn in HR |- *.
      * rewrite surface_restore. exact HR.
      * exact HR.
    + rewrite (Layer_render_inactive l c Ha) in E. inversion E; subst.
      apply Hrefl.
Qed.

Lemma renderChildren_returns (cs : list GameObject) :
  Forall (fun g => forall c, exists t c',
              GameObject_render g c = (t, Normal tt c')) cs ->
  forall c, exists t c', renderChildren cs c = (t, Normal tt c').
Proof.
  intros H. induction H as [|g cs Hg _ IH]; intros c.
  - exists [], c. reflexivity.
  - rewrite renderChildren_cons.
    destruct (active (state_of g)); [|apply IH].
    destruct (Hg c) as (ti & c1 & ->).
    destruct (IH c1) as (t2 & c2 & ->). eauto.
Qed.

Lemma render_returns (g : GameObject) :
  all_hooks returns g ->
  forall c, exists t c', GameObject_render g c = (t, Normal tt c').
Proof.
  induction g as [st render|l IH] using GameObject_tree_ind;
    intros H c; inversion H; subst.
  - destruct (H1 c) as [c' Hc]. exists [], c'.
    cbn. unfold extern. rewrite Hc. reflexivity.
  - rewrite GameObject_render_layer. destruct (active l) eqn:Ha.
    + rewrite (Layer_render_active l c Ha).
      assert (Hcs : Forall (fun g => forall c, exists t c',
                GameObject_render g c = (t, Normal tt c')) (children l)).
      { rewrite Forall_forall in *. intros g Hg. apply IH; auto. }
      destruct (renderChildren_returns (children l) Hcs (enter l c))
        as (t3 & c3 & ->). eauto.
    + rewrite (Layer_render_inactive l c Ha). eauto.
Qed.

(** X1: the first child whose render throws ends the pass.  The error and
    the context as it was at the throw reach the caller as they are, the
    log stops at that call, and the children behind it are not called. *)
Theorem first_throw_ends_the_pass
  (l : Layer) (pre post : list GameObject) (g : GameObject)
  (c c1 c2 : Ctx) (tp ti : list Event) (e : Error) :
  active l = true ->
  children l = pre ++ g :: post ->
  active (state_of g) = true ->
  renderChildren pre (enter l c) = (tp, Normal tt c1) ->
  GameObject_render g c1 = (ti, Throw e c2) ->
  Layer_render l c =
    (EvSave :: camera_events l ++ tp ++
       [EvRender (name (state_of g)) (cur c1) ti],
     Throw e c2).
Proof.
  intros Ha Hcs Hg Epre Eg.
  rewrite (Layer_render_active l c Ha), Hcs, renderChildren_app, Epre.
  rewrite renderChildren_cons, Hg, Eg. reflexivity.
Qed.

(** X2: a render reads of its layer the active flag, the camera and the
    active children, and nothing else: two layers that agree on these
    render alike, whatever their names, draw orders and inactive
    children. *)
Theorem render_reads_active_children_only (l l' : Layer) (c : Ctx) :
  active l = active l' ->
  _camera l = _camera l' ->
  actives (children l) = actives (children l') ->
  Layer_render l c = Layer_render l' c.
Proof.
  intros Ha Hcam Hcs. destruct (active l') eqn:Ha'.
  - rewrite (Layer_render_active l c Ha), (Layer_render_active l' c Ha').
    unfold enter, camera_events. rewrite Hcam.
    rewrite (renderChildren_actives (children l)), Hcs,
      <- (renderChildren_actives (children l')).
    reflexivity.
  - rewrite (Layer_render_inactive l c Ha), (Layer_render_inactive l' c Ha').
    reflexivity.
Qed.

(** X3: an active layer with no active child saves, applies its camera if
    it has one, and restores: the context comes back as it went in,
    transform, stack and surface. *)
Theorem layer_without_active_children (l : Layer) (c : Ctx) :
  active l = true ->
  actives (children l) = [] ->
  Layer_render l c = (EvSave :: camera_events l ++ [EvRestore], Normal tt c).
Proof.
  intros Ha Hcs.
  rewrite (Layer_render_active l c Ha), renderChildren_actives, Hcs,
    renderChildren_nil.
  cbn [app]. rewrite (ctx_restore_enter_eq l c (enter l c) eq_refl),
    surface_enter.
  destruct c; reflexivity.
Qed.

(** X4: layers nest by composition.  When the render of a layer returns
    and the external renders below it are neutral, its log is the one
    read off the tree by [layer_log]: the save, the camera, one call for
    each active child under the layer's view of the entry transform, and
    the restore; inside the call of a child that is itself a layer, the
    same again under that layer's view of that view, its camera composed
    onto the outer one or the outer transform itself when it has no
    camera, and so on down; inside the call of any other child,
    nothing. *)
Theorem nested_layers_compose
  (l : Layer) (c c' : Ctx) (t : list Event) :
  Forall (all_hooks neutral) (children l) ->
  Layer_render l c = (t, Normal tt c') ->
  t = layer_log (cur c) (ALayer l).
Proof.
  intros H E.
  exact (render_log (ALayer l) (hooks_layer neutral l H) c t c' E).
Qed.

(** X5: a layer paints nothing itself.  Whatever relation between the
    surface before and after every external render keeps, reflexive and
    transitive, the render of a layer keeps, on a return and on a throw. *)
Theorem layer_paints_only_through_children
  (R : list Paint -> list Paint -> Prop)
  (l : Layer) (c : Ctx) (t : list Event) (r : Completion unit) :
  (forall s, R s s) ->
  (forall a b d, R a b -> R b d -> R a d) ->
  Forall (all_hooks (surface_by R)) (children l) ->
  Layer_render l c = (t, r) ->
  R (surface c) (surface (ctx_of r)).
Proof.
  intros Hrefl Htrans H E.
  apply (render_surface R (ALayer l) Hrefl Htrans
           (hooks_layer (surface_by R) l H) c t r E).
Qed.

(** X6: a camera set on a layer is the camera of its next render.  When
    that render returns, the children called are the active ones, each
    under the new camera's transform composed onto the entry transform,
    or under the entry transform itself when the camera was set to none. *)
Theorem camera_swap_takes_effect
  (l : Layer) (v : option Camera) (c c' : Ctx) (t : list Event) :
  active l = true ->
  Forall (all_hooks neutral) (children l) ->
  Layer_render (set_camera v l) c = (t, Normal tt c') ->
  calls t =
  map (fun g => (name (state_of g),
                 match v with
                 | Some cam => compose (cur c) (matrix cam)
                 | None => cur c
                 end))
      (actives (children l)).
Proof.
  intros Ha H E.
  rewrite (Layer_render_active (set_camera v l) c Ha) in E.
  change (children (set_camera v l)) with (children l) in E.
  destruct (renderChildren (children l) (enter (set_camera v l) c))
    as [t3 [[] c3|e c3]] eqn:Er; [|discriminate].
  inversion E; subst. rewrite calls_layer_log by reflexivity.
  rewrite (renderChildren_calls (children l) H _ _ _ Er), cur_enter.
  reflexivity.
Qed.

(** X7: what an active layer does to the context itself in one render:
    one save, its camera once if it has one, and one restore when the
    children have all returned; when a child throws, no restore. *)
Theorem layer_own_operations
  (l : Layer) (c : Ctx) (t : list Event) (r : Completion unit) :
  active l = true ->
  Layer_render l c = (t, r) ->
  own t = EvSave :: camera_events l ++
          match r with
          | Normal _ _ => [EvRestore]
          | Throw _ _ => []
          end.
Proof.
  intros Ha E. rewrite (Layer_render_active l c Ha) in E.
  destruct (renderChildren (children l) (enter l c))
    as [t3 [[] c3|e c3]] eqn:Er; inversion E; subst;
    cbn [own]; rewrite !own_app, own_camera_events,
      (own_only_calls t3 (renderChildren_only_calls _ _ _ _ Er));
    reflexivity.
Qed.

(** X8: the log of a render that returns depends on the context through
    its current transform only: from two contexts under the same
    transform, whatever is saved in them and painted on them, a layer logs
    the same calls under the same transforms. *)
Theorem log_depends_on_transform_only
  (l : Layer) (a b a' b' : Ctx) (ta tb : list Event) :
  Forall (all_hooks neutral) (children l) ->
  cur a = cur b ->
  Layer_render l a = (ta, Normal tt a') ->
  Layer_render l b = (tb, Normal tt b') ->
  ta = tb.
Proof.
  intros H Hab Ea Eb.
  apply (render_same_log (ALayer l) (hooks_layer neutral l H)
           a b ta tb a' b' Hab Ea Eb).
Qed.

(** X9: a layer throws nothing of its own: when no external render below
    it throws, its render returns. *)
Theorem layer_render_returns (l : Layer) (c : Ctx) :
  Forall (all_hooks returns) (children l) ->
  exists t c', Layer_render l c = (t, Normal tt c').
Proof.
  intros H.
  apply (render_returns (ALayer l) (hooks_layer returns l H) c).
Qed.

End Further.

(** ** The further properties at concrete scenes *)

Lemma extends_refl {A : Type} (s : list A) : extends s s.
Proof. exists []. rewrite app_nil_r. reflexivity. Qed.

Lemma extends_trans {A : Type} (a b d : list A) :
  extends a b -> extends b d -> extends a d.
Proof.
  intros [m1 ->] [m2 ->]. exists (m1 ++ m2). rewrite app_assoc. reflexivity.
Qed.

Lemma paint_extends (label : string) : surface_by extends (paint label).
Proof. intros c. cbn. eexists. reflexivity. Qed.

Lemma failing_extends (msg : Error) : surface_by extends (failing msg).
Proof. intros c. cbn. apply extends_refl. Qed.

Lemma paint_returns (label : string) : returns (paint label).
Proof. intros c. eexists. reflexivity. Qed.

#[local] Hint Resolve paint_extends failing_extends paint_returns : hooks.

(** [faulty]: [A] is drawn, [X] throws, [C] is never called. *)
Lemma first_throw_ends_the_pass_witness :
  active faulty = true /\
  children faulty = [sprite "A" 0 true] ++ broken "X" 1 :: [sprite "C" 2 true] /\
  active (state_of (broken "X" 1)) = true /\
  Layer_render faulty blank =
    ([EvSave; EvApplyTransform follow;
      EvRender "A" (translation (-10) (-20)) [];
      EvRender "X" (translation (-10) (-20)) []],
     Throw "boom" (mkCtx (translation (-10) (-20)) [identity]
                         [("A", translation (-10) (-20))])).
Proof.
  split; [reflexivity|]. split; [reflexivity|]. split; [reflexivity|].
  exact (first_throw_ends_the_pass faulty [sprite "A" 0 true]
           [sprite "C" 2 true] (broken "X" 1) blank _ _ _ _ _
           eq_refl eq_refl eq_refl eq_refl eq_refl).
Defined.

(** [world] and [world_trimmed] render alike. *)
Lemma render_reads_active_children_only_witness :
  active world = active world_trimmed /\
  _camera world = _camera world_trimmed /\
  actives (children world) = actives (children world_trimmed) /\
  Layer_render world busy = Layer_render world_trimmed busy.
Proof.
  split; [reflexivity|]. split; [reflexivity|]. split; [reflexivity|].
  exact (render_reads_active_children_only world world_trimmed busy
           eq_refl eq_refl eq_refl).
Defined.

(** [idle] hands a context in use back as it was. *)
Lemma layer_without_active_children_witness :
  active idle = true /\ actives (children idle) = [] /\
  Layer_render idle busy =
    ([EvSave; EvApplyTransform follow; EvRestore], Normal tt busy).
Proof.
  split; [reflexivity|]. split; [reflexivity|].
  exact (layer_without_active_children idle busy eq_refl eq_refl).
Defined.

(** [world]: the child of the minimap is called under the zoom composed
    onto the camera. *)
Lemma nested_layers_compose_witness :
  Forall (all_hooks neutral) (children world) /\
  exists t c',
    Layer_render world blank = (t, Normal tt c') /\
    t = layer_log (cur blank) (ALayer world) /\
    layer_log (cur blank) (ALayer world) =
      [EvSave; EvApplyTransform follow;
       EvRender "A" (translation (-10) (-20)) [];
       EvRender "minimap" (translation (-10) (-20))
         [EvSave; EvApplyTransform zoom2;
          EvRender "N" (mkAffine 2 0 0 2 (-10) (-20)) [];
          EvRestore];
       EvRestore].
Proof.
  assert (H : Forall (all_hooks neutral) (children world)) by walk_hooks.
  split; [exact H|].
  eexists. eexists. split; [reflexivity|].
  split; [|reflexivity].
  exact (nested_layers_compose world blank _ _ H eq_refl).
Defined.

(** [faulty] from a context in use: what was painted stays, on the throw. *)
Lemma layer_paints_only_through_children_witness :
  Forall (all_hooks (surface_by extends)) (children faulty) /\
  extends (surface busy) (surface (ctx_of (snd (Layer_render faulty busy)))).
Proof.
  assert (H : Forall (all_hooks (surface_by extends)) (children faulty))
    by walk_hooks.
  split; [exact H|].
  exact (layer_paints_only_through_children extends faulty busy _ _
           extends_refl extends_trans H eq_refl).
Defined.

(** [world] with its camera taken away draws in screen space. *)
Lemma camera_swap_takes_effect_witness :
  active world = true /\
  Forall (all_hooks neutral) (children world) /\
  exists t c',
    Layer_render (set_camera None world) blank = (t, Normal tt c') /\
    calls t = [("A", identity); ("minimap", identity)].
Proof.
  assert (H : Forall (all_hooks neutral) (children world)) by walk_hooks.
  split; [reflexivity|]. split; [exact H|].
  eexists. eexists. split; [reflexivity|].
  exact (camera_swap_takes_effect world None blank _ _ eq_refl H eq_refl).
Defined.

(** [faulty]: a save and the camera, no restore. *)
Lemma layer_own_operations_witness :
  active faulty = true /\
  own (fst (Layer_render faulty blank)) = [EvSave; EvApplyTransform follow].
Proof.
  split; [reflexivity|].
  exact (layer_own_operations faulty blank _ (Throw _ _) eq_refl eq_refl).
Defined.

(** [world] from a fresh context and from one in use. *)
Lemma log_depends_on_transform_only_witness :
  Forall (all_hooks neutral) (children world) /\
  cur blank = cur busy /\
  fst (Layer_render world blank) = fst (Layer_render world busy).
Proof.
  assert (H : Forall (all_hooks neutral) (children world)) by walk_hooks.
  split; [exact H|]. split; [reflexivity|].
  exact (log_depends_on_transform_only world blank busy _ _ _ _ H
           eq_refl eq_refl eq_refl).
Defined.

(** [world] returns. *)
Lemma layer_render_returns_witness :
  Forall (all_hooks returns) (children world) /\
  exists t c', Layer_render world busy = (t, Normal tt c').
Proof.
  assert (H : Forall (all_hooks returns) (children world)) by walk_hooks.
  split; [exact H|].
  exact (layer_render_returns world busy H).
Defined.
